(** * Mesh.js: the command queue of a renderable

    A shallow embedding of [src/Mesh.js] (Famous engine) and the
    verification of its documented behaviour.  The JavaScript object
    graph is modelled by an explicit store: geometries and material
    expressions live in a heap indexed by references, the dispatcher is
    a record holding its output command stream and its dirty set, and
    every method of [Mesh.prototype] is a computation in a state monad
    whose outcome is either a returned value or a thrown error.  A
    thrown error keeps the effects performed before the throw, as it
    does in JavaScript. *)

From Stdlib Require Import ZArith.
From stdpp Require Import base option list gmap strings.

Local Open Scope Z_scope.
Local Open Scope nat_scope.

(** ** JavaScript values *)

(** References to heap-allocated objects; [!==] on objects compares
    references. *)
Definition loc := positive.

(** The values that travel through the queue.  Numbers are only ever
    carried, never computed with, so an integer payload stands for them.
    Arrays handed to the mesh are not mutated by it and are carried by
    content. *)
#[warnings="-register-all"]
Inductive value : Type :=
| VUndef
| VBool (b : bool)
| VNum (n : Z)
| VStr (s : string)
| VArr (a : list value)
| VRef (l : loc).

(** [Array.isArray(v)] *)
Definition isArray (v : value) : bool :=
  match v with VArr _ => true | _ => false end.

(** [typeof v === 'number'] *)
Definition isNumber (v : value) : bool :=
  match v with VNum _ => true | _ => false end.

(** Structural comparison of two values (used only to recognise opcodes
    and identifiers in a flat command list). *)
Fixpoint value_eqb (x y : value) : bool :=
  match x, y with
  | VUndef, VUndef => true
  | VBool a, VBool b => Bool.eqb a b
  | VNum a, VNum b => Z.eqb a b
  | VStr a, VStr b => String.eqb a b
  | VArr a, VArr b =>
      (fix go (a b : list value) : bool :=
         match a, b with
         | [], [] => true
         | u :: a', v :: b' => value_eqb u v && go a' b'
         | _, _ => false
         end) a b
  | VRef a, VRef b => Pos.eqb a b
  | _, _ => false
  end.

(** [a[i]]: reading past the end of an array yields [undefined]. *)
Definition js_index (a : list value) (i : nat) : value :=
  default VUndef (a !! i).

(** [a[i] = v]: writing past the end of an array extends it, the holes
    reading as [undefined]. *)
Definition js_store (a : list value) (i : nat) (v : value) : list value :=
  if decide (i < length a) then <[i := v]> a
  else a ++ replicate (i - length a) VUndef ++ [v].

(** ** Geometry descriptors and material expressions *)

Record GeometrySpec : Type := {
  type : value;
  dynamic : value;
  invalidations : list nat;
  bufferNames : list value;
  bufferValues : list value;
  bufferSpacings : list value
}.

Record Geometry : Type := {
  id : value;
  spec : GeometrySpec
}.

(** [spec.invalidations] with a new content, every other field kept. *)
Definition with_invalidations (inv : list nat) (g : Geometry) : Geometry :=
  {| id := id g;
     spec := {| type := type (spec g);
                dynamic := dynamic (spec g);
                invalidations := inv;
                bufferNames := bufferNames (spec g);
                bufferValues := bufferValues (spec g);
                bufferSpacings := bufferSpacings (spec g) |} |}.

(** Heap objects: a geometry, or a material expression.  A material
    expression either carries a [_compile] method, given by the value the
    method returns, or none. *)
Inductive object : Type :=
| OGeometry (g : Geometry)
| OMaterial (_compile : option value).

(** ** The dispatcher *)

Record Transform : Type := { _matrix : value }.

Record Context : Type := { _transform : Transform; _origin : value }.

Inductive event : Type :=
| TransformChange
| SizeChange
| OpacityChange
| OriginChange.

(** Modelled from the spec: the dispatcher class is not part of
    [Mesh.js]; only its interface is used there.  Following the
    interface section of the specification it assigns identities
    ([addRenderable]), records subscriptions, exposes the current
    context and render path, tracks the set of dirty renderables
    ([dirtyRenderable]) and accepts the output command stream
    ([sendDrawCommand] appends one element to it). *)
Record Dispatch : Type := {
  renderPath : value;
  context : Context;
  nextId : nat;
  subscriptions : list event;
  dirty : gset nat;
  commands : list value
}.

(** ** The mesh and the program state *)

Record Mesh : Type := {
  queue : list value;
  _size : list value;
  _id : nat;
  uniforms : list value;
  buffers : list value;
  _geometry : option loc;
  _baseColor : value
}.

Record State : Type := {
  this : Mesh;
  dispatch : Dispatch;
  heap : gmap loc object
}.

Definition set_queue (q : list value) (m : Mesh) : Mesh :=
  {| queue := q; _size := _size m; _id := _id m; uniforms := uniforms m;
     buffers := buffers m; _geometry := _geometry m;
     _baseColor := _baseColor m |}.

Definition set_size (sz : list value) (m : Mesh) : Mesh :=
  {| queue := queue m; _size := sz; _id := _id m; uniforms := uniforms m;
     buffers := buffers m; _geometry := _geometry m;
     _baseColor := _baseColor m |}.

Definition set_geometry (g : option loc) (m : Mesh) : Mesh :=
  {| queue := queue m; _size := _size m; _id := _id m; uniforms := uniforms m;
     buffers := buffers m; _geometry := g; _baseColor := _baseColor m |}.

Definition set_baseColor (v : value) (m : Mesh) : Mesh :=
  {| queue := queue m; _size := _size m; _id := _id m; uniforms := uniforms m;
     buffers := buffers m; _geometry := _geometry m; _baseColor := v |}.

Definition set_dirty (ds : gset nat) (d : Dispatch) : Dispatch :=
  {| renderPath := renderPath d; context := context d; nextId := nextId d;
     subscriptions := subscriptions d; dirty := ds; commands := commands d |}.

Definition set_commands (cs : list value) (d : Dispatch) : Dispatch :=
  {| renderPath := renderPath d; context := context d; nextId := nextId d;
     subscriptions := subscriptions d; dirty := dirty d; commands := cs |}.

Definition set_subscriptions (es : list event) (d : Dispatch) : Dispatch :=
  {| renderPath := renderPath d; context := context d; nextId := nextId d;
     subscriptions := es; dirty := dirty d; commands := commands d |}.

Definition with_this (m : Mesh) (s : State) : State :=
  {| this := m; dispatch := dispatch s; heap := heap s |}.

Definition with_dispatch (d : Dispatch) (s : State) : State :=
  {| this := this s; dispatch := d; heap := heap s |}.

Definition with_heap (h : gmap loc object) (s : State) : State :=
  {| this := this s; dispatch := dispatch s; heap := h |}.

(** ** Computations: state and exceptions *)

Inductive error : Type := TypeError.

Inductive outcome (A : Type) : Type :=
| Return (a : A)
| Throw (e : error).
Arguments Return {A} a.
Arguments Throw {A} e.

Definition M (A : Type) : Type := State → outcome A * State.

Definition ret {A} (a : A) : M A := λ s, (Return a, s).

Definition throw {A} (e : error) : M A := λ s, (Throw e, s).

Definition bind {A B} (m : M A) (k : A → M B) : M B :=
  λ s, match m s with
       | (Return a, s') => k a s'
       | (Throw e, s') => (Throw e, s')
       end.

Declare Scope js_scope.
Delimit Scope js_scope with js.
Notation "'let*' x := m 'in' k" := (bind m (λ x, k))
  (at level 10, x name, m at level 100, k at level 200) : js_scope.
Notation "m >> k" := (bind m (λ _, k))
  (at level 90, right associativity) : js_scope.
Local Open Scope js_scope.

Definition get_this : M Mesh := λ s, (Return (this s), s).

Definition modify_this (f : Mesh → Mesh) : M unit :=
  λ s, (Return tt, with_this (f (this s)) s).

Definition modify_dispatch (f : Dispatch → Dispatch) : M unit :=
  λ s, (Return tt, with_dispatch (f (dispatch s)) s).

(** [this.queue.push(v)] *)
Definition push (v : value) : M unit :=
  modify_this (λ m, set_queue (queue m ++ [v]) m).

(** [this.queue.shift()]: removes and returns the first element,
    [undefined] on an empty queue. *)
Definition shift : M value :=
  λ s, match queue (this s) with
       | [] => (Return VUndef, s)
       | v :: q => (Return v, with_this (set_queue q (this s)) s)
       end.

(** *** Dispatcher methods *)

Definition addRenderable (d : Dispatch) : nat * Dispatch :=
  (nextId d,
   {| renderPath := renderPath d; context := context d;
      nextId := S (nextId d); subscriptions := subscriptions d;
      dirty := dirty d; commands := commands d |}).

Definition subscribe (e : event) : M unit :=
  modify_dispatch (λ d, set_subscriptions (subscriptions d ++ [e]) d).

Definition getContext : M Context := λ s, (Return (context (dispatch s)), s).

Definition dirtyRenderable (i : nat) : M unit :=
  modify_dispatch (λ d, set_dirty ({[ i ]} ∪ dirty d) d).

Definition getRenderPath : M value :=
  λ s, (Return (renderPath (dispatch s)), s).

Definition sendDrawCommand (v : value) : M unit :=
  modify_dispatch (λ d, set_commands (commands d ++ [v]) d).

(** *** Access to the assigned geometry *)

(** Evaluation of [this._geometry.<field>]: a [TypeError] when
    [this._geometry] is [undefined]. *)
Definition this_geometry : M (loc * Geometry) :=
  λ s, match _geometry (this s) with
       | None => (Throw TypeError, s)
       | Some l =>
           match heap s !! l with
           | Some (OGeometry g) => (Return (l, g), s)
           | _ => (Throw TypeError, s)
           end
       end.

(** Evaluation of the fields of the argument of [setGeometry]. *)
Definition geometry_at (l : loc) : M Geometry :=
  λ s, match heap s !! l with
       | Some (OGeometry g) => (Return g, s)
       | _ => (Throw TypeError, s)
       end.

(** [this._geometry.spec.invalidations.pop()]: removes the last entry of
    the shared invalidation list and returns it. *)
Definition pop_invalidation : M (option nat) :=
  let* lg := this_geometry in
  let inv := invalidations (spec lg.2) in
  λ s, (Return (last inv),
        with_heap (<[lg.1 := OGeometry (with_invalidations (removelast inv) lg.2)]>
                     (heap s)) s).

(** ** The methods of [Mesh.prototype] *)

Definition _receiveTransformChange (transform : Transform) : M unit :=
  let* m := get_this in
  dirtyRenderable (_id m) >>
  push (VStr "GL_UNIFORMS") >>
  push (VStr "transform") >>
  push (_matrix transform).

(** The argument stands for the array returned by
    [size.getTopDownSize()]. *)
Definition _receiveSizeChange (size : list value) : M unit :=
  let* m := get_this in
  dirtyRenderable (_id m) >>
  modify_this (λ m, set_size (js_store (_size m) 0 (js_index size 0)) m) >>
  modify_this (λ m, set_size (js_store (_size m) 1 (js_index size 1)) m) >>
  modify_this (λ m, set_size (js_store (_size m) 2 (js_index size 2)) m) >>
  push (VStr "GL_UNIFORMS") >>
  push (VStr "size") >>
  push (VArr size).

Definition _receiveOriginChange (origin : value) : M unit :=
  let* m := get_this in
  dirtyRenderable (_id m) >>
  push (VStr "GL_UNIFORMS") >>
  push (VStr "origin") >>
  push origin.

Definition _receiveOpacityChange (opacity : value) : M unit :=
  let* m := get_this in
  dirtyRenderable (_id m) >>
  push (VStr "GL_UNIFORMS") >>
  push (VStr "opacity") >>
  push opacity.

Definition init : M unit :=
  subscribe TransformChange >>
  subscribe SizeChange >>
  subscribe OpacityChange >>
  subscribe OriginChange >>
  (let* c := getContext in _receiveTransformChange (_transform c)) >>
  (let* c := getContext in _receiveOriginChange (_origin c)).

(** [new Mesh(dispatch)], the heap being the objects that exist at the
    time of the call. *)
Definition Mesh_new (d : Dispatch) (h : gmap loc object) : State :=
  let '(i, d1) := addRenderable d in
  let this0 :=
    {| queue := [VStr "GL_CREATE_MESH"];
       _size := [VNum 0; VNum 0; VNum 0];
       _id := i;
       uniforms := [];
       buffers := [];
       _geometry := None;
       _baseColor := VUndef |} in
  let this1 := set_size [] this0 in
  let s := (init {| this := this1; dispatch := d1; heap := h |}).2 in
  with_this (set_geometry None (this s)) s.

Definition getSize : M (list value) :=
  let* m := get_this in ret (_size m).

Definition setGeometry (geometry : loc) : M unit :=
  let* m := get_this in
  if decide (_geometry m = Some geometry) then ret tt
  else
    push (VStr "GL_SET_GEOMETRY") >>
    (let* g := geometry_at geometry in push (id g)) >>
    (let* g := geometry_at geometry in push (type (spec g))) >>
    (let* g := geometry_at geometry in push (dynamic (spec g))) >>
    modify_this (set_geometry (Some geometry)).

(** The first loop of [clean], [while (i--) { ... }], entered with the
    given value of [i]. *)
Fixpoint clean_invalidations (i : nat) : M unit :=
  match i with
  | 0 => ret tt
  | S i =>
      (let* bufferIndex := pop_invalidation in
       sendDrawCommand (VStr "GL_BUFFER_DATA")) >>
      (let* lg := this_geometry in sendDrawCommand (id lg.2)) >>
      (let* lg := this_geometry in
       sendDrawCommand (js_index (bufferNames (spec lg.2)) i)) >>
      (let* lg := this_geometry in
       sendDrawCommand (js_index (bufferValues (spec lg.2)) i)) >>
      (let* lg := this_geometry in
       sendDrawCommand (js_index (bufferSpacings (spec lg.2)) i)) >>
      clean_invalidations i
  end.

(** The second loop of [clean],
    [while (i--) this.dispatch.sendDrawCommand(this.queue.shift())]. *)
Fixpoint clean_queue (i : nat) : M unit :=
  match i with
  | 0 => ret tt
  | S i => (let* v := shift in sendDrawCommand v) >> clean_queue i
  end.

Definition clean : M bool :=
  let* path := getRenderPath in
  sendDrawCommand (VStr "WITH") >>
  sendDrawCommand path >>
  let* lg := this_geometry in
  clean_invalidations (length (invalidations (spec lg.2))) >>
  let* m := get_this in
  clean_queue (length (queue m)) >>
  let* m := get_this in
  ret (bool_decide (length (queue m) = 0)).

(** The value of [e] after [if (e._compile) e = e._compile();] in the
    heap [h]: reading a property of [undefined] throws; a primitive or an
    array has no [_compile]; an object is replaced by what its [_compile]
    method returns when it has one. *)
Definition compiled (h : gmap loc object) (e : value) : outcome value :=
  match e with
  | VUndef => Throw TypeError
  | VRef l =>
      match h !! l with
      | Some (OMaterial (Some v)) => Return v
      | _ => Return e
      end
  | _ => Return e
  end.

Definition compile (materialExpression : value) : M value :=
  λ s, (compiled (heap s) materialExpression, s).

Definition baseColor (materialExpression : value) : M unit :=
  let* m := get_this in
  dirtyRenderable (_id m) >>
  let* materialExpression := compile materialExpression in
  (if isArray materialExpression then push (VStr "GL_UNIFORMS")
   else
     modify_this (set_baseColor materialExpression) >>
     push (VStr "MATERIAL_INPUT")) >>
  push (VStr "baseColor") >>
  push materialExpression.

Definition normal (materialExpression : value) : M unit :=
  let* materialExpression := compile materialExpression in
  push (if isNumber materialExpression then VStr "UNIFORM_INPUT"
        else VStr "MATERIAL_INPUT") >>
  push (VStr "normal") >>
  push materialExpression.

Definition glossiness (materialExpression : value) : M unit :=
  let* materialExpression := compile materialExpression in
  push (if isNumber materialExpression then VStr "UNIFORM_INPUT"
        else VStr "MATERIAL_INPUT") >>
  push (VStr "glossiness") >>
  push materialExpression.

Definition metallic (materialExpression : value) : M unit :=
  let* materialExpression := compile materialExpression in
  push (if isNumber materialExpression then VStr "UNIFORM_INPUT"
        else VStr "MATERIAL_INPUT") >>
  push (VStr "metallic") >>
  push materialExpression.

(** ** Sequences of calls *)

(** The property-change notifications the dispatcher delivers. *)
Inductive notification : Type :=
| OnTransformChange (transform : Transform)
| OnSizeChange (size : list value)
| OnOpacityChange (opacity : value)
| OnOriginChange (origin : value).

Definition notify (n : notification) : M unit :=
  match n with
  | OnTransformChange transform => _receiveTransformChange transform
  | OnSizeChange size => _receiveSizeChange size
  | OnOpacityChange opacity => _receiveOpacityChange opacity
  | OnOriginChange origin => _receiveOriginChange origin
  end.

Fixpoint deliver (ns : list notification) : M unit :=
  match ns with
  | [] => ret tt
  | n :: ns => notify n >> deliver ns
  end.

(** Successive [setGeometry] calls. *)
Fixpoint assign (ls : list loc) : M unit :=
  match ls with
  | [] => ret tt
  | l :: ls => setGeometry l >> assign ls
  end.

(** Any call a client can make on a mesh. *)
Inductive call : Type :=
| Notify (n : notification)
| SetGeometry (geometry : loc)
| Clean
| GetSize
| BaseColor (materialExpression : value)
| Normal (materialExpression : value)
| Glossiness (materialExpression : value)
| Metallic (materialExpression : value).

(** The state a call leaves behind, whether it returns or throws. *)
Definition perform (s : State) (c : call) : State :=
  match c with
  | Notify n => (notify n s).2
  | SetGeometry l => (setGeometry l s).2
  | Clean => (clean s).2
  | GetSize => (getSize s).2
  | BaseColor v => (baseColor v s).2
  | Normal v => (normal v s).2
  | Glossiness v => (glossiness v s).2
  | Metallic v => (metallic v s).2
  end.

Definition perform_all (cs : list call) (s : State) : State :=
  foldl perform s cs.

Definition is_SetGeometry (c : call) : bool :=
  match c with SetGeometry _ => true | _ => false end.

(** ** Observations on states and command lists *)

(** The state [s] with the commands [cs] appended to the output stream. *)
Definition emit (cs : list value) (s : State) : State :=
  with_dispatch (set_commands (commands (dispatch s) ++ cs) (dispatch s)) s.

(** The mesh holds the reference [l], at which the heap has the
    geometry [g]. *)
Definition has_geometry (s : State) (l : loc) (g : Geometry) : Prop :=
  _geometry (this s) = Some l ∧ heap s !! l = Some (OGeometry g).

(** The two-element header that selects the render path. *)
Definition header (s : State) : list value :=
  [VStr "WITH"; renderPath (dispatch s)].

(** One upload command, as [clean] emits it when its loop counter is
    [i]. *)
Definition upload (g : Geometry) (i : nat) : list value :=
  [VStr "GL_BUFFER_DATA"; id g;
   js_index (bufferNames (spec g)) i;
   js_index (bufferValues (spec g)) i;
   js_index (bufferSpacings (spec g)) i].

(** The uploads emitted by the first loop of [clean] entered with
    counter [n]. *)
Fixpoint uploads (g : Geometry) (n : nat) : list value :=
  match n with
  | 0 => []
  | S i => upload g i ++ uploads g i
  end.

(** The state [clean] leaves behind when a geometry is assigned. *)
Definition cleaned (s : State) (l : loc) (g : Geometry) : State :=
  with_this (set_queue [] (this s))
    (with_heap (<[l := OGeometry (with_invalidations [] g)]> (heap s))
       (emit (header s
              ++ uploads g (length (invalidations (spec g)))
              ++ queue (this s)) s)).

(** The opcode a notification appends to the queue. *)
Definition opcode (n : notification) : list value :=
  match n with
  | OnTransformChange transform =>
      [VStr "GL_UNIFORMS"; VStr "transform"; _matrix transform]
  | OnSizeChange size => [VStr "GL_UNIFORMS"; VStr "size"; VArr size]
  | OnOpacityChange opacity => [VStr "GL_UNIFORMS"; VStr "opacity"; opacity]
  | OnOriginChange origin => [VStr "GL_UNIFORMS"; VStr "origin"; origin]
  end.

(** The opcode [setGeometry] appends for the geometry [g]. *)
Definition SET_GEOMETRY (g : Geometry) : list value :=
  [VStr "GL_SET_GEOMETRY"; id g; type (spec g); dynamic (spec g)].

Definition SET_GEOMETRY_at (h : gmap loc object) (l : loc) : list value :=
  match h !! l with
  | Some (OGeometry g) => SET_GEOMETRY g
  | _ => []
  end.

(** The calls of a sequence of [setGeometry] calls whose argument
    differs from the reference held when the call is made. *)
Fixpoint changes (held : option loc) (ls : list loc) : list loc :=
  match ls with
  | [] => []
  | l :: ls =>
      if decide (held = Some l) then changes held ls
      else l :: changes (Some l) ls
  end.

(** The reference held after a sequence of [setGeometry] calls. *)
Definition held_after (held : option loc) (ls : list loc) : option loc :=
  match last ls with
  | Some l => Some l
  | None => held
  end.

(** Number of [GL_SET_GEOMETRY] opcodes in a queue that carry the
    geometry id [gid]. *)
Fixpoint pending_SET_GEOMETRY (gid : value) (q : list value) : nat :=
  match q with
  | [] => 0
  | op :: q' =>
      (match q' with
       | i :: _ =>
           if value_eqb op (VStr "GL_SET_GEOMETRY") && value_eqb i gid
           then 1 else 0
       | [] => 0
       end) + pending_SET_GEOMETRY gid q'
  end.

(** The material-input opcode of the three slots sharing one rule. *)
Definition INPUT (slot : string) (v : value) : list value :=
  [VStr (if isNumber v then "UNIFORM_INPUT" else "MATERIAL_INPUT");
   VStr slot; v].

(** ** Concrete scenes *)

Module Scene.

Definition d0 : Dispatch :=
  {| renderPath := VStr "body/0";
     context := {| _transform := {| _matrix := VArr [VNum 1; VNum 0; VNum 0; VNum 1] |};
                   _origin := VArr [VNum 0; VNum 0; VNum 0] |};
     nextId := 0;
     subscriptions := [];
     dirty := ∅;
     commands := [] |}.

(** A geometry with one buffer and one pending invalidation. *)
Definition G : Geometry :=
  {| id := VNum 7;
     spec := {| type := VStr "TRIANGLES";
                dynamic := VBool false;
                invalidations := [0];
                bufferNames := [VStr "position"];
                bufferValues := [VArr [VNum 1; VNum 2; VNum 3]];
                bufferSpacings := [VNum 3] |} |}.

(** A geometry with two buffers, the second of which is invalidated. *)
Definition H : Geometry :=
  {| id := VNum 8;
     spec := {| type := VStr "TRIANGLES";
                dynamic := VBool true;
                invalidations := [1];
                bufferNames := [VStr "position"; VStr "normal"];
                bufferValues := [VArr [VNum 1; VNum 2; VNum 3];
                                 VArr [VNum 0; VNum 0; VNum 1]];
                bufferSpacings := [VNum 3; VNum 4] |} |}.

Definition A : loc := 1%positive.
Definition B : loc := 2%positive.

Definition h0 : gmap loc object :=
  <[A := OGeometry G]> (<[B := OGeometry H]> ∅).

(** A freshly constructed mesh. *)
Definition fresh : State := Mesh_new d0 h0.

(** The output that Scenario A of the specification expects, for the
    geometry [G]. *)
Definition scenario_A_expected : list value :=
  [VStr "WITH"; VStr "body/0";
   VStr "GL_SET_GEOMETRY"; VNum 7; VStr "TRIANGLES"; VBool false;
   VStr "GL_BUFFER_DATA"; VNum 7; VStr "position";
   VArr [VNum 1; VNum 2; VNum 3]; VNum 3;
   VStr "GL_CREATE_MESH";
   VStr "GL_UNIFORMS"; VStr "transform";
   VArr [VNum 1; VNum 0; VNum 0; VNum 1];
   VStr "GL_UNIFORMS"; VStr "origin"; VArr [VNum 0; VNum 0; VNum 0]].

End Scene.

(** ** Further observations *)

Definition is_Clean (c : call) : bool :=
  match c with Clean => true | _ => false end.

Definition is_SizeChange (c : call) : bool :=
  match c with Notify (OnSizeChange _) => true | _ => false end.

Definition is_BaseColor (c : call) : bool :=
  match c with BaseColor _ => true | _ => false end.

(** The cached size after the three component writes of
    [_receiveSizeChange]. *)
Definition cache_size (size : list value) (sz : list value) : list value :=
  js_store (js_store (js_store sz 0 (js_index size 0)) 1 (js_index size 1))
    2 (js_index size 2).

(** The cached size after a notification. *)
Definition size_after (n : notification) (sz : list value) : list value :=
  match n with
  | OnSizeChange size => cache_size size sz
  | _ => sz
  end.

(** The cached size after a call. *)
Definition size_after_call (c : call) (sz : list value) : list value :=
  match c with
  | Notify n => size_after n sz
  | _ => sz
  end.

(** The fields no method of the mesh assigns after construction: the
    identity and the two unused arrays of the mesh, and the render path,
    the context, the identity counter and the subscriptions of the
    dispatcher. *)
Definition fixed_part (s : State)
  : nat * list value * list value * value * Context * nat * list event :=
  (_id (this s), uniforms (this s), buffers (this s),
   renderPath (dispatch s), context (dispatch s), nextId (dispatch s),
   subscriptions (dispatch s)).

(** What a call may change, read off the methods: only a size-change
    notification writes the cached size, only [setGeometry] the held
    reference, only [baseColor] the cached colour, only [clean] the
    output stream and the heap; the dirty set never loses an element. *)
Definition frame_of (c : call) (s s' : State) : Prop :=
  fixed_part s' = fixed_part s
  ∧ _size (this s') = size_after_call c (_size (this s))
  ∧ dirty (dispatch s) ⊆ dirty (dispatch s')
  ∧ (is_Clean c = false →
     commands (dispatch s') = commands (dispatch s) ∧ heap s' = heap s)
  ∧ (is_SetGeometry c = false → _geometry (this s') = _geometry (this s))
  ∧ (is_BaseColor c = false → _baseColor (this s') = _baseColor (this s)).

(** The uploads of the buffers at the given indices, in that order. *)
Definition uploads_at (g : Geometry) (ixs : list nat) : list value :=
  flat_map (upload g) ixs.

Module Scene2.

(** A geometry with one buffer that was invalidated twice. *)
Definition K : Geometry :=
  {| id := VNum 9;
     spec := {| type := VStr "TRIANGLES";
                dynamic := VBool true;
                invalidations := [0; 0];
                bufferNames := [VStr "position"];
                bufferValues := [VArr [VNum 1; VNum 2; VNum 3]];
                bufferSpacings := [VNum 3] |} |}.

Definition C : loc := 3%positive.

(** A compilable material expression and the value it compiles to. *)
Definition D : loc := 4%positive.
Definition texture : value := VStr "image.png".

Definition h1 : gmap loc object :=
  <[D := OMaterial (Some texture)]> (<[C := OGeometry K]> Scene.h0).

(** A freshly constructed mesh holding the geometry [Scene.G]. *)
Definition withG : State := perform (Mesh_new Scene.d0 h1) (SetGeometry Scene.A).

End Scene2.

(** * Verification *)

(** ** Basic facts *)

#[local] Arguments js_store : simpl never.
#[local] Arguments js_index : simpl never.

Create HintDb js discriminated.
#[local] Hint Unfold ret throw get_this modify_this modify_dispatch push
  subscribe getContext dirtyRenderable getRenderPath sendDrawCommand
  compile : js.
#[local] Hint Unfold with_this with_dispatch with_heap set_queue set_size
  set_geometry set_baseColor set_dirty set_commands set_subscriptions
  emit header : js.

(** Projections out of explicit records. *)
Ltac js_proj :=
  cbn [fst snd this dispatch heap queue _size _id uniforms buffers
       _geometry _baseColor renderPath context nextId subscriptions dirty
       commands _transform _origin _matrix].

(** Runs a straight-line computation one [bind] at a time, so that
    every intermediate state is a simplified record before the next
    step is taken. *)
Ltac js_run :=
  repeat (progress (try unfold bind at 1; autounfold with js; js_proj)).

Lemma with_invalidations_id g :
  with_invalidations (invalidations (spec g)) g = g.
Proof. by destruct g as [i []]. Qed.

Lemma uploads_with_invalidations inv g n :
  uploads (with_invalidations inv g) n = uploads g n.
Proof. induction n as [|n IH]; [done|]. simpl. by rewrite IH. Qed.

Lemma removelast_take {A} (l : list A) :
  removelast l = take (length l - 1) l.
Proof.
  induction l as [|x [|y l] IH]; [done..|].
  change (removelast (x :: y :: l)) with (x :: removelast (y :: l)).
  rewrite IH. simpl. by rewrite Nat.sub_0_r.
Qed.

Lemma emit_nil s : emit [] s = s.
Proof.
  destruct s as [m [] h]. unfold emit, with_dispatch, set_commands. simpl.
  by rewrite app_nil_r.
Qed.

Lemma emit_emit cs1 cs2 s : emit cs2 (emit cs1 s) = emit (cs1 ++ cs2) s.
Proof.
  unfold emit, with_dispatch, set_commands. simpl. by rewrite app_assoc.
Qed.

(** ** The two loops of [clean] *)

(** The second loop sends the whole queue, first element first, and
    leaves the queue empty. *)
Lemma clean_queue_drains q : ∀ s,
  queue (this s) = q →
  clean_queue (length q) s
  = (Return tt, with_this (set_queue [] (this s)) (emit q s)).
Proof.
  induction q as [|v q IH]; intros s Hq.
  - simpl. unfold ret. rewrite emit_nil. destruct s as [[] d h].
    simpl in Hq. by subst.
  - simpl. unfold bind at 1. unfold bind at 1. unfold shift. rewrite Hq.
    simpl. rewrite IH by done. simpl. f_equal.
    unfold emit, with_this, with_dispatch, set_commands, set_queue. simpl.
    by rewrite <- app_assoc.
Qed.

(** The first loop, entered with counter [n], pops [n] entries off the
    end of the shared invalidation list and sends one upload per pop,
    built from the buffers at the loop counter. *)
Lemma clean_invalidations_pops n : ∀ s l g,
  has_geometry s l g →
  clean_invalidations n s
  = (Return tt,
     with_heap
       (<[l := OGeometry
                 (with_invalidations
                    (take (length (invalidations (spec g)) - n)
                          (invalidations (spec g))) g)]> (heap s))
       (emit (uploads g n) s)).
Proof.
  induction n as [|n IH]; intros s l g [Hl Hg].
  - simpl. unfold ret. rewrite Nat.sub_0_r, firstn_all, with_invalidations_id.
    rewrite insert_id by done. rewrite emit_nil. by destruct s.
  - simpl.
    set (g' := with_invalidations (removelast (invalidations (spec g))) g).
    set (s' := with_heap (<[l := OGeometry g']> (heap s)) (emit (upload g n) s)).
    assert (Hs' : has_geometry s' l g').
    { split; [done|]. subst s'. simpl. by rewrite lookup_insert_eq. }
    transitivity (clean_invalidations n s').
    + unfold bind, pop_invalidation, this_geometry, bind, sendDrawCommand,
        modify_dispatch.
      repeat (progress (simpl; rewrite ?Hl, ?Hg, ?lookup_insert_eq)). f_equal.
      subst s' g'. unfold emit, with_heap, with_dispatch, set_commands, upload.
      simpl. rewrite <- !app_assoc. done.
    + rewrite (IH s' l g' Hs'). f_equal. subst s' g'. simpl.
      rewrite insert_insert_eq. unfold with_heap. simpl. f_equal.
      * unfold emit, with_dispatch, set_commands; simpl.
        rewrite <- app_assoc. by rewrite uploads_with_invalidations.
      * f_equal. f_equal. unfold with_invalidations; simpl. f_equal. f_equal.
        rewrite removelast_take, length_take, take_take. f_equal. lia.
Qed.

(** ** Closed forms of [clean] *)

Lemma clean_returns s l g :
  has_geometry s l g → clean s = (Return true, cleaned s l g).
Proof.
  intros [Hl Hg]. unfold clean.
  set (s1 := emit (header s) s).
  assert (H1 : has_geometry s1 l g) by done.
  unfold bind at 1. simpl.
  unfold bind at 1. simpl.
  unfold bind at 1. simpl.
  unfold bind at 1. unfold this_geometry at 1. simpl. rewrite Hl, Hg.
  unfold bind at 1.
  change (with_dispatch _ (with_dispatch _ s)) with
    (with_dispatch (set_commands
       ((commands (dispatch s) ++ [VStr "WITH"]) ++ [renderPath (dispatch s)])
       (dispatch s)) s).
  replace (with_dispatch _ s) with s1
    by (subst s1; unfold emit, header, with_dispatch, set_commands; simpl;
        by rewrite <- app_assoc).
  rewrite (clean_invalidations_pops _ s1 l g H1).
  rewrite Nat.sub_diag, take_0.
  unfold bind at 1. simpl. unfold bind at 1.
  rewrite (clean_queue_drains (queue (this s))) by done.
  simpl. f_equal.
  unfold cleaned, emit, header, with_this, with_heap, with_dispatch,
    set_commands. simpl.
  by rewrite <- !app_assoc.
Qed.

Lemma clean_throws s :
  _geometry (this s) = None →
  clean s = (Throw TypeError, emit (header s) s).
Proof.
  intros Hn. unfold clean, bind, this_geometry. simpl. rewrite Hn.
  f_equal. unfold emit, header, with_dispatch, set_commands; simpl.
  by rewrite <- app_assoc.
Qed.

(** [clean] returns only when the held reference is that of a geometry. *)
Lemma clean_Return_inv s b s' :
  clean s = (Return b, s') →
  ∃ l g, has_geometry s l g ∧ b = true ∧ s' = cleaned s l g.
Proof.
  intros Hc. destruct (_geometry (this s)) as [l|] eqn:Hl.
  - destruct (heap s !! l) as [[g|c]|] eqn:Hg.
    + exists l, g. rewrite (clean_returns s l g) in Hc by done.
      by injection Hc as <- <-.
    + unfold clean, bind, this_geometry in Hc. simpl in Hc.
      by rewrite Hl, Hg in Hc.
    + unfold clean, bind, this_geometry in Hc. simpl in Hc.
      by rewrite Hl, Hg in Hc.
  - by rewrite clean_throws in Hc.
Qed.

(** ** Closed forms of the other methods *)

Lemma notify_pushes n s :
  ∃ sz ds,
    notify n s
    = (Return tt,
       with_dispatch (set_dirty ds (dispatch s))
         (with_this (set_size sz (set_queue (queue (this s) ++ opcode n)
                                            (this s))) s)).
Proof.
  destruct n as [t|sz|o|o]; simpl.
  - exists (_size (this s)), ({[ _id (this s) ]} ∪ dirty (dispatch s)).
    unfold _receiveTransformChange. js_run. by rewrite <- !app_assoc.
  - exists (js_store
              (js_store (js_store (_size (this s)) 0 (js_index sz 0))
                 1 (js_index sz 1))
              2 (js_index sz 2)),
      ({[ _id (this s) ]} ∪ dirty (dispatch s)).
    unfold _receiveSizeChange. js_run. by rewrite <- !app_assoc.
  - exists (_size (this s)), ({[ _id (this s) ]} ∪ dirty (dispatch s)).
    unfold _receiveOpacityChange. js_run. by rewrite <- !app_assoc.
  - exists (_size (this s)), ({[ _id (this s) ]} ∪ dirty (dispatch s)).
    unfold _receiveOriginChange. js_run. by rewrite <- !app_assoc.
Qed.

Lemma deliver_pushes ns : ∀ s,
  ∃ sz ds,
    deliver ns s
    = (Return tt,
       with_dispatch (set_dirty ds (dispatch s))
         (with_this (set_size sz (set_queue (queue (this s) ++ flat_map opcode ns)
                                            (this s))) s)).
Proof.
  induction ns as [|n ns IH]; intros s.
  - exists (_size (this s)), (dirty (dispatch s)). simpl. unfold ret.
    rewrite app_nil_r. by destruct s as [[] [] h].
  - destruct (notify_pushes n s) as (sz1 & ds1 & Hn).
    simpl. unfold bind. rewrite Hn.
    match goal with |- context [deliver ns ?s1] =>
      destruct (IH s1) as (sz2 & ds2 & Hd) end.
    exists sz2, ds2. rewrite Hd. js_run. by rewrite <- app_assoc.
Qed.

Lemma setGeometry_same s l :
  _geometry (this s) = Some l → setGeometry l s = (Return tt, s).
Proof.
  intros Hl. unfold setGeometry. js_run. by rewrite decide_True.
Qed.

Lemma setGeometry_other s l g :
  _geometry (this s) ≠ Some l →
  heap s !! l = Some (OGeometry g) →
  setGeometry l s
  = (Return tt,
     with_this (set_geometry (Some l)
                  (set_queue (queue (this s) ++ SET_GEOMETRY g) (this s))) s).
Proof.
  intros Hl Hg. unfold setGeometry. js_run. rewrite decide_False by done.
  unfold geometry_at. js_run. repeat (rewrite Hg; simpl).
  unfold SET_GEOMETRY. by rewrite <- !app_assoc.
Qed.

Lemma held_after_cons held l ls :
  held_after held (l :: ls) = held_after (Some l) ls.
Proof.
  unfold held_after. destruct ls as [|x ls]; [done|].
  change (last (l :: x :: ls)) with (last (x :: ls)).
  destruct (last (x :: ls)) eqn:Hlast; [done|].
  by apply last_None in Hlast.
Qed.

Lemma assign_appends ls : ∀ s,
  Forall (λ l, ∃ g, heap s !! l = Some (OGeometry g)) ls →
  assign ls s
  = (Return tt,
     with_this
       (set_geometry (held_after (_geometry (this s)) ls)
          (set_queue (queue (this s)
                      ++ flat_map (SET_GEOMETRY_at (heap s))
                           (changes (_geometry (this s)) ls))
             (this s))) s).
Proof.
  induction ls as [|l ls IH]; intros s Hls.
  - simpl. unfold ret, held_after. simpl. rewrite app_nil_r.
    by destruct s as [[] d h].
  - apply Forall_cons in Hls as [[g Hg] Hls].
    rewrite held_after_cons. simpl. unfold bind at 1.
    destruct (decide (_geometry (this s) = Some l)) as [Hl|Hl].
    + rewrite setGeometry_same by done. rewrite IH by done. by rewrite Hl.
    + rewrite (setGeometry_other s l g) by done. rewrite IH by done.
      simpl. unfold SET_GEOMETRY_at at 2. rewrite Hg.
      js_run. by rewrite <- app_assoc.
Qed.

(** *** Material inputs whose compile step returns *)

Section Compiled.

Variables (s : State) (v v' : value).
Hypothesis Hc : compiled (heap s) v = Return v'.

Lemma baseColor_compiled :
  baseColor v s
  = (Return tt,
     with_dispatch (set_dirty ({[ _id (this s) ]} ∪ dirty (dispatch s))
                      (dispatch s))
       (with_this
          (set_baseColor (if isArray v' then _baseColor (this s) else v')
             (set_queue
                (queue (this s)
                 ++ [VStr (if isArray v' then "GL_UNIFORMS"
                           else "MATERIAL_INPUT");
                     VStr "baseColor"; v']) (this s))) s)).
Proof.
  unfold baseColor, compile. js_run. rewrite Hc.
  destruct (isArray v'); js_run; by rewrite <- !app_assoc.
Qed.

Lemma normal_compiled :
  normal v s
  = (Return tt,
     with_this (set_queue (queue (this s) ++ INPUT "normal" v') (this s)) s).
Proof.
  unfold normal, compile. js_run. rewrite Hc.
  js_run. unfold INPUT. rewrite <- !app_assoc. by destruct (isNumber v').
Qed.

Lemma glossiness_compiled :
  glossiness v s
  = (Return tt,
     with_this (set_queue (queue (this s) ++ INPUT "glossiness" v') (this s)) s).
Proof.
  unfold glossiness, compile. js_run. rewrite Hc.
  js_run. unfold INPUT. rewrite <- !app_assoc. by destruct (isNumber v').
Qed.

Lemma metallic_compiled :
  metallic v s
  = (Return tt,
     with_this (set_queue (queue (this s) ++ INPUT "metallic" v') (this s)) s).
Proof.
  unfold metallic, compile. js_run. rewrite Hc.
  js_run. unfold INPUT. rewrite <- !app_assoc. by destruct (isNumber v').
Qed.

End Compiled.

(** *** Material inputs whose compile step throws *)

Lemma baseColor_throws s v e :
  compiled (heap s) v = Throw e →
  baseColor v s
  = (Throw e,
     with_dispatch (set_dirty ({[ _id (this s) ]} ∪ dirty (dispatch s))
                      (dispatch s)) s).
Proof. intros Hc. unfold baseColor, compile. js_run. by rewrite Hc. Qed.

Lemma input_throws s v e :
  compiled (heap s) v = Throw e →
  normal v s = (Throw e, s) ∧ glossiness v s = (Throw e, s)
  ∧ metallic v s = (Throw e, s).
Proof.
  intros Hc. unfold normal, glossiness, metallic, compile. js_run.
  by rewrite Hc.
Qed.

Lemma with_this_queue_id s :
  with_this (set_queue (queue (this s)) (this s)) s = s.
Proof. by destruct s as [[] d h]. Qed.

(** A call other than [setGeometry] never assigns a geometry. *)
Lemma perform_keeps_no_geometry s c :
  is_SetGeometry c = false →
  _geometry (this s) = None →
  _geometry (this (perform s c)) = None.
Proof.
  intros Hc Hn. destruct c as [n|l| | |v|v|v|v]; simpl; try done.
  - by destruct (notify_pushes n s) as (sz & ds & ->).
  - by rewrite clean_throws.
  - destruct (compiled (heap s) v) as [v'|e] eqn:Hv.
    + by rewrite (baseColor_compiled s v v').
    + by rewrite (baseColor_throws s v e).
  - destruct (compiled (heap s) v) as [v'|e] eqn:Hv.
    + by rewrite (normal_compiled s v v').
    + by destruct (input_throws s v e Hv) as (-> & _).
  - destruct (compiled (heap s) v) as [v'|e] eqn:Hv.
    + by rewrite (glossiness_compiled s v v').
    + by destruct (input_throws s v e Hv) as (_ & -> & _).
  - destruct (compiled (heap s) v) as [v'|e] eqn:Hv.
    + by rewrite (metallic_compiled s v v').
    + by destruct (input_throws s v e Hv) as (_ & _ & ->).
Qed.

Lemma perform_all_keeps_no_geometry cs : ∀ s,
  forallb (λ c, negb (is_SetGeometry c)) cs = true →
  _geometry (this s) = None →
  _geometry (this (perform_all cs s)) = None.
Proof.
  induction cs as [|c cs IH]; intros s Hcs Hn; [done|].
  simpl in Hcs. apply andb_prop in Hcs as [Hc Hcs].
  apply negb_true_iff in Hc. simpl. apply IH; [done|].
  by apply perform_keeps_no_geometry.
Qed.

Lemma Mesh_new_no_geometry d h : _geometry (this (Mesh_new d h)) = None.
Proof. done. Qed.

(** The state right after construction. *)
Lemma Mesh_new_state d h :
  Mesh_new d h
  = {| this :=
         {| queue := [VStr "GL_CREATE_MESH";
                      VStr "GL_UNIFORMS"; VStr "transform";
                      _matrix (_transform (context d));
                      VStr "GL_UNIFORMS"; VStr "origin"; _origin (context d)];
            _size := [];
            _id := nextId d;
            uniforms := [];
            buffers := [];
            _geometry := None;
            _baseColor := VUndef |};
       dispatch :=
         {| renderPath := renderPath d;
            context := context d;
            nextId := S (nextId d);
            subscriptions :=
              subscriptions d
              ++ [TransformChange; SizeChange; OpacityChange; OriginChange];
            dirty := {[ nextId d ]} ∪ ({[ nextId d ]} ∪ dirty d);
            commands := commands d |};
       heap := h |}.
Proof.
  unfold Mesh_new, init, _receiveTransformChange, _receiveOriginChange,
    addRenderable.
  js_run. rewrite <- !app_assoc. reflexivity.
Qed.

(** ** Geometry invalidations *)

(** After [clean] the shared invalidation list of the assigned geometry
    is empty: every pending entry was popped, the last one first. *)
Lemma clean_consumes_invalidations s l g :
  has_geometry s l g →
  heap (clean s).2 !! l = Some (OGeometry (with_invalidations [] g)).
Proof.
  intros Hg. rewrite (clean_returns s l g Hg). simpl.
  by rewrite lookup_insert_eq.
Qed.

(** C1, evaluated where the code departs from it.  The geometry
    [Scene.H] has the buffers "position" and "normal" and one pending
    invalidation, which names index 1, the buffer "normal".  [clean]
    pops that entry but builds the upload command from its loop
    counter, which is 0: the command carries the name, value and
    spacing of the buffer "position". *)
Theorem clean_upload_reads_loop_counter :
  let s := perform Scene.fresh (SetGeometry Scene.B) in
  has_geometry s Scene.B Scene.H
  ∧ invalidations (spec Scene.H) = [1]
  ∧ js_index (bufferNames (spec Scene.H)) 1 = VStr "normal"
  ∧ (clean s).1 = Return true
  ∧ take 5 (drop 2 (commands (dispatch (clean s).2)))
    = [VStr "GL_BUFFER_DATA"; VNum 8; VStr "position";
       VArr [VNum 1; VNum 2; VNum 3]; VNum 3].
Proof. repeat split; vm_compute; reflexivity. Qed.

(** ** Draining without a geometry *)

(** C2 as stated fails: on a freshly constructed mesh [clean] throws,
    but the path-selection header has reached the output stream by
    then. *)
Lemma clean_without_geometry_partial_output :
  (clean Scene.fresh).1 = Throw TypeError
  ∧ commands (dispatch Scene.fresh) = []
  ∧ commands (dispatch (clean Scene.fresh).2) = [VStr "WITH"; VStr "body/0"]
  ∧ commands (dispatch (clean Scene.fresh).2) ≠ commands (dispatch Scene.fresh).
Proof. repeat split; vm_compute; (reflexivity || discriminate). Qed.

(** C2, amended.  On a mesh on which [setGeometry] was never called,
    whatever else was called since its construction, [clean] throws a
    [TypeError]; the path-selection header, and nothing else, has been
    sent to the output stream, and nothing else in the state has
    changed. *)
Theorem clean_without_geometry d h cs :
  forallb (λ c, negb (is_SetGeometry c)) cs = true →
  let s := perform_all cs (Mesh_new d h) in
  clean s = (Throw TypeError, emit (header s) s).
Proof.
  intros Hcs s. apply clean_throws.
  apply perform_all_keeps_no_geometry; [done|]. apply Mesh_new_no_geometry.
Qed.

Lemma clean_without_geometry_witness :
  let cs := [Notify (OnOpacityChange (VNum 1));
             BaseColor (VArr [VNum 1; VNum 0; VNum 0]); Clean; GetSize] in
  forallb (λ c, negb (is_SetGeometry c)) cs = true
  ∧ clean (perform_all cs (Mesh_new Scene.d0 Scene.h0))
    = (Throw TypeError,
       emit (header (perform_all cs (Mesh_new Scene.d0 Scene.h0)))
         (perform_all cs (Mesh_new Scene.d0 Scene.h0))).
Proof.
  intros cs. split; [reflexivity|].
  apply (clean_without_geometry Scene.d0 Scene.h0 cs). reflexivity.
Defined.

(** ** Scenario A *)

(** C3 as stated fails: the output of Scenario A is not in the order
    the claim gives. *)
Lemma scenario_A_order_differs :
  commands (dispatch ((setGeometry Scene.A >> clean) Scene.fresh).2)
  ≠ Scene.scenario_A_expected.
Proof. vm_compute. discriminate. Qed.

(** C3, amended.  For a mesh that is constructed and then assigned a
    geometry with exactly one buffer, named "position", and one pending
    invalidation, a single [clean] returns [true] and sends, in this
    order: the path-selection header, the upload of the buffer
    "position", [GL_CREATE_MESH], the uniform "transform", the uniform
    "origin", and last [GL_SET_GEOMETRY] with the id, type and dynamic
    flag of the geometry; afterwards the queue is empty. *)
Theorem scenario_A d h l g k bv bs :
  h !! l = Some (OGeometry g) →
  bufferNames (spec g) = [VStr "position"] →
  bufferValues (spec g) = [bv] →
  bufferSpacings (spec g) = [bs] →
  invalidations (spec g) = [k] →
  ∃ s',
    (setGeometry l >> clean) (Mesh_new d h) = (Return true, s')
    ∧ commands (dispatch s')
      = commands d
        ++ [VStr "WITH"; renderPath d;
            VStr "GL_BUFFER_DATA"; id g; VStr "position"; bv; bs;
            VStr "GL_CREATE_MESH";
            VStr "GL_UNIFORMS"; VStr "transform";
            _matrix (_transform (context d));
            VStr "GL_UNIFORMS"; VStr "origin"; _origin (context d);
            VStr "GL_SET_GEOMETRY"; id g; type (spec g); dynamic (spec g)]
    ∧ queue (this s') = [].
Proof.
  intros Hg Hn Hv Hs Hi. eexists. unfold bind at 1.
  rewrite (setGeometry_other (Mesh_new d h) l g) by done.
  erewrite clean_returns; [|by split].
  split; [reflexivity|]. split; [|done].
  rewrite Mesh_new_state. simpl. rewrite Hi. simpl.
  unfold upload, js_index. rewrite Hn, Hv, Hs. done.
Qed.

Lemma scenario_A_witness :
  ∃ s',
    (setGeometry Scene.A >> clean) (Mesh_new Scene.d0 Scene.h0)
    = (Return true, s')
    ∧ commands (dispatch s')
      = commands Scene.d0
        ++ [VStr "WITH"; renderPath Scene.d0;
            VStr "GL_BUFFER_DATA"; id Scene.G; VStr "position";
            VArr [VNum 1; VNum 2; VNum 3]; VNum 3;
            VStr "GL_CREATE_MESH";
            VStr "GL_UNIFORMS"; VStr "transform";
            _matrix (_transform (context Scene.d0));
            VStr "GL_UNIFORMS"; VStr "origin"; _origin (context Scene.d0);
            VStr "GL_SET_GEOMETRY"; id Scene.G; type (spec Scene.G);
            dynamic (spec Scene.G)]
    ∧ queue (this s') = [].
Proof.
  apply (scenario_A Scene.d0 Scene.h0 Scene.A Scene.G 0
           (VArr [VNum 1; VNum 2; VNum 3]) (VNum 3)); reflexivity.
Defined.

(** ** Assigning geometries *)

(** C4 as stated fails: assigning [A], then [B], then [A] again leaves
    two pending [GL_SET_GEOMETRY] opcodes for [A] in the queue. *)
Lemma setGeometry_ABA_pending_twice :
  ¬ pending_SET_GEOMETRY (id Scene.G)
      (queue (this (assign [Scene.A; Scene.B; Scene.A] Scene.fresh).2)) ≤ 1.
Proof. vm_compute. lia. Qed.

(** C4, amended.  Over a sequence of [setGeometry] calls without an
    intervening drain the queue gains exactly one [GL_SET_GEOMETRY]
    opcode for each call whose argument differs from the reference held
    at the time of the call, in call order, and nothing for the other
    calls; the mesh ends up holding the last reference assigned and
    nothing else changes.  Reassigning the held reference is a no-op
    that appends nothing and changes no state. *)
Theorem setGeometry_one_opcode_per_change s ls :
  Forall (λ l, ∃ g, heap s !! l = Some (OGeometry g)) ls →
  assign ls s
  = (Return tt,
     with_this
       (set_geometry (held_after (_geometry (this s)) ls)
          (set_queue (queue (this s)
                      ++ flat_map (SET_GEOMETRY_at (heap s))
                           (changes (_geometry (this s)) ls))
             (this s))) s)
  ∧ ∀ l, _geometry (this s) = Some l → setGeometry l s = (Return tt, s).
Proof.
  intros Hls. split; [by apply assign_appends|].
  intros l Hl. by apply setGeometry_same.
Qed.

Lemma setGeometry_one_opcode_per_change_witness :
  Forall (λ l, ∃ g, heap Scene.fresh !! l = Some (OGeometry g))
    [Scene.A; Scene.A; Scene.B]
  ∧ queue (this (assign [Scene.A; Scene.A; Scene.B] Scene.fresh).2)
    = queue (this Scene.fresh) ++ SET_GEOMETRY Scene.G ++ SET_GEOMETRY Scene.H.
Proof.
  assert (Hls : Forall (λ l, ∃ g, heap Scene.fresh !! l = Some (OGeometry g))
                  [Scene.A; Scene.A; Scene.B]).
  { repeat constructor; [exists Scene.G|exists Scene.G|exists Scene.H];
      vm_compute; reflexivity. }
  split; [exact Hls|].
  rewrite (proj1 (setGeometry_one_opcode_per_change Scene.fresh _ Hls)).
  vm_compute. reflexivity.
Defined.

(** ** Material inputs *)

(** C5 as stated fails: a numeric scalar assigned to [baseColor] is
    queued as [MATERIAL_INPUT], not tagged [UNIFORM_INPUT], and an array
    assigned to [normal] is queued as [MATERIAL_INPUT], not as
    [GL_UNIFORMS]. *)
Lemma material_input_classes_differ :
  let q := queue (this Scene.fresh) in
  let v := VArr [VNum 0; VNum 0; VNum 1] in
  queue (this (baseColor (VNum 5) Scene.fresh).2)
  = q ++ [VStr "MATERIAL_INPUT"; VStr "baseColor"; VNum 5]
  ∧ queue (this (baseColor (VNum 5) Scene.fresh).2)
    ≠ q ++ [VStr "UNIFORM_INPUT"; VStr "baseColor"; VNum 5]
  ∧ queue (this (normal v Scene.fresh).2)
    = q ++ [VStr "MATERIAL_INPUT"; VStr "normal"; v]
  ∧ queue (this (normal v Scene.fresh).2)
    ≠ q ++ [VStr "GL_UNIFORMS"; VStr "normal"; v].
Proof. repeat split; vm_compute; (reflexivity || discriminate). Qed.

(** C5, amended.  The opcode family is decided per slot from the value
    [v'] left by the compile step.  [baseColor] queues [GL_UNIFORMS]
    when [v'] is an array and [MATERIAL_INPUT] for anything else, a
    numeric scalar included.  [normal], [glossiness] and [metallic]
    queue [UNIFORM_INPUT] when [v'] is a number and [MATERIAL_INPUT] for
    anything else, an array included.  In particular [baseColor] of the
    array [1, 0, 0] queues a [GL_UNIFORMS] opcode. *)
Theorem material_input_opcode s v v' :
  compiled (heap s) v = Return v' →
  ((baseColor v s).1 = Return tt
   ∧ queue (this (baseColor v s).2)
     = queue (this s)
       ++ [VStr (if isArray v' then "GL_UNIFORMS" else "MATERIAL_INPUT");
           VStr "baseColor"; v'])
  ∧ ((normal v s).1 = Return tt
     ∧ queue (this (normal v s).2)
       = queue (this s)
         ++ [VStr (if isNumber v' then "UNIFORM_INPUT" else "MATERIAL_INPUT");
             VStr "normal"; v'])
  ∧ ((glossiness v s).1 = Return tt
     ∧ queue (this (glossiness v s).2)
       = queue (this s)
         ++ [VStr (if isNumber v' then "UNIFORM_INPUT" else "MATERIAL_INPUT");
             VStr "glossiness"; v'])
  ∧ ((metallic v s).1 = Return tt
     ∧ queue (this (metallic v s).2)
       = queue (this s)
         ++ [VStr (if isNumber v' then "UNIFORM_INPUT" else "MATERIAL_INPUT");
             VStr "metallic"; v'])
  ∧ queue (this (baseColor (VArr [VNum 1; VNum 0; VNum 0]) s).2)
    = queue (this s)
      ++ [VStr "GL_UNIFORMS"; VStr "baseColor";
          VArr [VNum 1; VNum 0; VNum 0]].
Proof.
  intros Hc.
  rewrite (baseColor_compiled s v v' Hc), (normal_compiled s v v' Hc),
    (glossiness_compiled s v v' Hc), (metallic_compiled s v v' Hc).
  by rewrite (baseColor_compiled s (VArr [VNum 1; VNum 0; VNum 0])
                (VArr [VNum 1; VNum 0; VNum 0])).
Qed.

Lemma material_input_opcode_witness :
  compiled (heap Scene.fresh) (VNum 5) = Return (VNum 5)
  ∧ queue (this (glossiness (VNum 5) Scene.fresh).2)
    = queue (this Scene.fresh)
      ++ [VStr "UNIFORM_INPUT"; VStr "glossiness"; VNum 5].
Proof.
  split; [reflexivity|].
  apply (material_input_opcode Scene.fresh (VNum 5) (VNum 5)). reflexivity.
Defined.

(** C9.  [baseColor] marks the mesh dirty with the dispatcher, also
    when the compile step throws; [normal], [glossiness] and [metallic]
    leave the dirty set as it is.  Apart from the dirty set, the queue
    and, for [baseColor], the cached [_baseColor], an assignment changes
    nothing: not the other fields of the mesh, not the rest of the
    dispatcher, not the heap. *)
Theorem material_input_frame s v :
  (_id (this s) ∈ dirty (dispatch (baseColor v s).2)
   ∧ ∃ q b ds,
       (baseColor v s).2
       = with_dispatch (set_dirty ds (dispatch s))
           (with_this (set_baseColor b (set_queue q (this s))) s))
  ∧ (dirty (dispatch (normal v s).2) = dirty (dispatch s)
     ∧ ∃ q, (normal v s).2 = with_this (set_queue q (this s)) s)
  ∧ (dirty (dispatch (glossiness v s).2) = dirty (dispatch s)
     ∧ ∃ q, (glossiness v s).2 = with_this (set_queue q (this s)) s)
  ∧ (dirty (dispatch (metallic v s).2) = dirty (dispatch s)
     ∧ ∃ q, (metallic v s).2 = with_this (set_queue q (this s)) s).
Proof.
  destruct (compiled (heap s) v) as [v'|e] eqn:Hc.
  - rewrite (baseColor_compiled s v v' Hc), (normal_compiled s v v' Hc),
      (glossiness_compiled s v v' Hc), (metallic_compiled s v v' Hc).
    simpl. repeat split; eauto. set_solver.
  - rewrite (baseColor_throws s v e Hc).
    destruct (input_throws s v e Hc) as (-> & -> & ->).
    simpl. repeat split; try (exists (queue (this s));
                              by rewrite with_this_queue_id).
    + set_solver.
    + exists (queue (this s)), (_baseColor (this s)),
        ({[ _id (this s) ]} ∪ dirty (dispatch s)).
      by destruct s as [[] d h].
Qed.

(** ** Draining *)

(** C6.  With a geometry assigned, delivering any sequence of
    notifications and then calling [clean] once returns [true] and
    appends to the output stream one path-selection header, the uploads
    of the pending geometry invalidations, what the queue held before
    the notifications, and then the opcodes of the notifications in the
    order in which they were delivered; the queue is left empty. *)
Theorem clean_after_notifications s l g ns :
  has_geometry s l g →
  ∃ s',
    (deliver ns >> clean) s = (Return true, s')
    ∧ commands (dispatch s')
      = commands (dispatch s)
        ++ [VStr "WITH"; renderPath (dispatch s)]
        ++ uploads g (length (invalidations (spec g)))
        ++ queue (this s)
        ++ flat_map opcode ns
    ∧ queue (this s') = [].
Proof.
  intros [Hl Hg]. destruct (deliver_pushes ns s) as (sz & ds & Hd).
  eexists. unfold bind at 1. rewrite Hd.
  erewrite clean_returns; [|by split].
  split; [reflexivity|]. split; [|done].
  unfold cleaned. js_run. reflexivity.
Qed.

Lemma clean_after_notifications_witness :
  let s := perform Scene.fresh (SetGeometry Scene.A) in
  let ns := [OnOpacityChange (VNum 1);
             OnSizeChange [VNum 10; VNum 20; VNum 30];
             OnOpacityChange (VNum 0)] in
  has_geometry s Scene.A Scene.G
  ∧ ∃ s',
      (deliver ns >> clean) s = (Return true, s')
      ∧ commands (dispatch s')
        = commands (dispatch s)
          ++ [VStr "WITH"; renderPath (dispatch s)]
          ++ uploads Scene.G (length (invalidations (spec Scene.G)))
          ++ queue (this s)
          ++ flat_map opcode ns
      ∧ queue (this s') = [].
Proof.
  intros s ns.
  assert (Hg : has_geometry s Scene.A Scene.G) by (split; reflexivity).
  split; [exact Hg|].
  exact (clean_after_notifications s Scene.A Scene.G ns Hg).
Defined.

(** C7.  With a geometry assigned, [clean] returns [true] and leaves
    the queue empty; a second call right after it returns [true] again
    and sends the path-selection header and nothing else, leaving the
    rest of the state as the first call left it. *)
Theorem clean_idempotent s l g :
  has_geometry s l g →
  ∃ s1,
    clean s = (Return true, s1)
    ∧ queue (this s1) = []
    ∧ clean s1 = (Return true, emit (header s1) s1).
Proof.
  intros Hg. exists (cleaned s l g). split; [by apply clean_returns|].
  split; [done|].
  assert (H1 : has_geometry (cleaned s l g) l (with_invalidations [] g)).
  { destruct Hg as [Hl Hg]. split; [done|]. simpl.
    by rewrite lookup_insert_eq. }
  rewrite (clean_returns _ _ _ H1). f_equal.
  unfold cleaned. js_run.
  cbn [with_invalidations invalidations spec length uploads app].
  by rewrite insert_insert_eq.
Qed.

Lemma clean_idempotent_witness :
  let s := perform Scene.fresh (SetGeometry Scene.A) in
  has_geometry s Scene.A Scene.G
  ∧ ∃ s1,
      clean s = (Return true, s1)
      ∧ queue (this s1) = []
      ∧ clean s1 = (Return true, emit (header s1) s1).
Proof.
  intros s.
  assert (Hg : has_geometry s Scene.A Scene.G) by (split; reflexivity).
  split; [exact Hg|].
  exact (clean_idempotent s Scene.A Scene.G Hg).
Defined.

(** C10.  Whenever [clean] returns, it returns [true]: a geometry was
    assigned, the second loop sent the whole queue, one element per
    iteration, and the queue is empty. *)
Theorem clean_returns_only_true s b s' :
  clean s = (Return b, s') →
  b = true
  ∧ queue (this s') = []
  ∧ ∃ l g,
      has_geometry s l g
      ∧ commands (dispatch s')
        = commands (dispatch s)
          ++ header s
          ++ uploads g (length (invalidations (spec g)))
          ++ queue (this s).
Proof.
  intros Hc. apply clean_Return_inv in Hc as (l & g & Hg & -> & ->).
  split; [done|]. split; [done|]. by exists l, g.
Qed.

Lemma clean_returns_only_true_witness :
  let s := perform Scene.fresh (SetGeometry Scene.B) in
  clean s = (Return true, cleaned s Scene.B Scene.H)
  ∧ queue (this (cleaned s Scene.B Scene.H)) = [].
Proof.
  intros s.
  assert (Hc : clean s = (Return true, cleaned s Scene.B Scene.H))
    by (vm_compute; reflexivity).
  split; [exact Hc|].
  exact (proj1 (proj2 (clean_returns_only_true s true _ Hc))).
Defined.

(** ** The cached size *)

(** [getSize] returns the cached size and changes nothing. *)
Lemma getSize_pure s : getSize s = (Return (_size (this s)), s).
Proof. done. Qed.

(** After a size-change notification received with a cached size of no
    or three components, the cached size has three components, the
    first three of the size received. *)
Lemma getSize_after_size_change size s :
  length (_size (this s)) = 0 ∨ length (_size (this s)) = 3 →
  getSize (_receiveSizeChange size s).2
  = (Return [js_index size 0; js_index size 1; js_index size 2],
     (_receiveSizeChange size s).2).
Proof.
  intros Hlen. rewrite getSize_pure. f_equal.
  unfold _receiveSizeChange. js_run.
  destruct (_size (this s)) as [|a [|b [|c [|e sz]]]]; simpl in Hlen;
    try lia; reflexivity.
Qed.

(** C8, evaluated where the code departs from it.  The constructor
    first sets [_size] to [0, 0, 0] and then overwrites it with the
    empty array, so until the first size-change notification [getSize]
    returns an array of no component. *)
Theorem getSize_after_construction d h :
  getSize (Mesh_new d h) = (Return [], Mesh_new d h).
Proof. by rewrite getSize_pure, Mesh_new_state. Qed.

(** * Further properties of the code *)

(** ** JavaScript arrays *)

Lemma js_store_length a i v :
  length (js_store a i v) = max (length a) (S i).
Proof.
  unfold js_store. case_decide.
  - rewrite length_insert. lia.
  - rewrite !length_app, length_replicate. simpl. lia.
Qed.

Lemma js_index_store_eq a i v : js_index (js_store a i v) i = v.
Proof.
  unfold js_index, js_store. case_decide.
  - by rewrite list_lookup_insert_eq.
  - rewrite lookup_app_r by lia.
    rewrite lookup_app_r by (rewrite length_replicate; lia).
    rewrite length_replicate.
    by replace (i - length a - (i - length a)) with 0 by lia.
Qed.

Lemma js_index_store_ne a i j v :
  i ≠ j → js_index (js_store a i v) j = js_index a j.
Proof.
  intros Hij. unfold js_index, js_store. case_decide.
  - by rewrite list_lookup_insert_ne.
  - destruct (decide (j < length a)) as [Hj|Hj].
    + by rewrite lookup_app_l.
    + rewrite (lookup_ge_None_2 a j) by lia.
      rewrite lookup_app_r by lia.
      destruct (decide (j < i)) as [Hji|Hji].
      * rewrite lookup_app_l by (rewrite length_replicate; lia).
        rewrite lookup_replicate_2 by lia. done.
      * rewrite lookup_ge_None_2; [done|].
        rewrite length_app, length_replicate. simpl. lia.
Qed.

Lemma cache_size_length size sz :
  length (cache_size size sz) = max (length sz) 3.
Proof. unfold cache_size. rewrite !js_store_length. lia. Qed.

Lemma cache_size_index size sz i :
  i < 3 → js_index (cache_size size sz) i = js_index size i.
Proof.
  intros Hi. unfold cache_size.
  destruct i as [|[|[|i]]]; [| | |lia].
  - by rewrite !js_index_store_ne, js_index_store_eq by lia.
  - by rewrite js_index_store_ne, js_index_store_eq by lia.
  - by rewrite js_index_store_eq.
Qed.

(** ** Exact states after a call *)

Lemma notify_state n s :
  notify n s
  = (Return tt,
     with_dispatch
       (set_dirty ({[ _id (this s) ]} ∪ dirty (dispatch s)) (dispatch s))
       (with_this
          (set_size (size_after n (_size (this s)))
             (set_queue (queue (this s) ++ opcode n) (this s))) s)).
Proof.
  destruct n as [t|sz|o|o]; cbn [notify size_after opcode].
  - unfold _receiveTransformChange. js_run. by rewrite <- !app_assoc.
  - unfold _receiveSizeChange, cache_size. js_run. by rewrite <- !app_assoc.
  - unfold _receiveOpacityChange. js_run. by rewrite <- !app_assoc.
  - unfold _receiveOriginChange. js_run. by rewrite <- !app_assoc.
Qed.

(** [clean] on a mesh whose held reference is not that of a geometry
    in the heap. *)
Lemma clean_dangling s l :
  _geometry (this s) = Some l →
  (∀ g, heap s !! l ≠ Some (OGeometry g)) →
  clean s = (Throw TypeError, emit (header s) s).
Proof.
  intros Hl Hg. unfold clean, this_geometry. js_run. rewrite Hl.
  destruct (heap s !! l) as [[g|c]|] eqn:Hh; [by destruct (Hg g)|..];
    by rewrite <- app_assoc.
Qed.

(** The two ways [clean] can end. *)
Lemma clean_cases s :
  (∃ l g, has_geometry s l g ∧ clean s = (Return true, cleaned s l g))
  ∨ clean s = (Throw TypeError, emit (header s) s).
Proof.
  destruct (_geometry (this s)) as [l|] eqn:Hl.
  - destruct (heap s !! l) as [[g|c]|] eqn:Hg.
    + left. exists l, g. split; [done|]. by apply clean_returns.
    + right. apply (clean_dangling s l Hl). intros g. by rewrite Hg.
    + right. apply (clean_dangling s l Hl). intros g. by rewrite Hg.
  - right. by apply clean_throws.
Qed.

(** [setGeometry] with a reference that differs from the held one and
    is not that of a geometry in the heap. *)
Lemma setGeometry_dangling s l :
  _geometry (this s) ≠ Some l →
  (∀ g, heap s !! l ≠ Some (OGeometry g)) →
  setGeometry l s
  = (Throw TypeError,
     with_this (set_queue (queue (this s) ++ [VStr "GL_SET_GEOMETRY"])
                  (this s)) s).
Proof.
  intros Hl Hg. unfold setGeometry. js_run. rewrite decide_False by done.
  unfold geometry_at. js_run.
  by destruct (heap s !! l) as [[g|c]|] eqn:Hh; [destruct (Hg g)|..].
Qed.

(** The state a [setGeometry] call leaves differs from the state it
    found in the queue and the held reference at most. *)
Lemma setGeometry_shape s l :
  ∃ q r, (setGeometry l s).2
         = with_this (set_geometry r (set_queue q (this s))) s.
Proof.
  destruct (decide (_geometry (this s) = Some l)) as [Hl|Hl].
  - rewrite setGeometry_same by done.
    exists (queue (this s)), (_geometry (this s)). by destruct s as [[] d h].
  - destruct (heap s !! l) as [[g|c]|] eqn:Hg.
    + rewrite (setGeometry_other s l g) by done. eauto.
    + rewrite setGeometry_dangling; [|done|intros g; by rewrite Hg].
      exists (queue (this s) ++ [VStr "GL_SET_GEOMETRY"]), (_geometry (this s)).
      by destruct s as [[] d h].
    + rewrite setGeometry_dangling; [|done|intros g; by rewrite Hg].
      exists (queue (this s) ++ [VStr "GL_SET_GEOMETRY"]), (_geometry (this s)).
      by destruct s as [[] d h].
Qed.

(** ** What a call may change *)

Ltac frame_solve :=
  unfold frame_of, fixed_part, cleaned; js_run;
  cbn [size_after_call is_Clean is_SetGeometry is_BaseColor];
  repeat split; try done; try set_solver.

Lemma perform_frame s c : frame_of c s (perform s c).
Proof.
  destruct c as [n|l| | |v|v|v|v]; cbn [perform].
  - rewrite notify_state. frame_solve.
  - destruct (setGeometry_shape s l) as (q & r & ->). frame_solve.
  - destruct (clean_cases s) as [(l & g & Hg & ->)| ->]; frame_solve.
  - rewrite getSize_pure. frame_solve.
  - destruct (compiled (heap s) v) as [v'|e] eqn:Hv.
    + rewrite (baseColor_compiled s v v' Hv). frame_solve.
    + rewrite (baseColor_throws s v e Hv). frame_solve.
  - destruct (compiled (heap s) v) as [v'|e] eqn:Hv.
    + rewrite (normal_compiled s v v' Hv). frame_solve.
    + destruct (input_throws s v e Hv) as (-> & _). frame_solve.
  - destruct (compiled (heap s) v) as [v'|e] eqn:Hv.
    + rewrite (glossiness_compiled s v v' Hv). frame_solve.
    + destruct (input_throws s v e Hv) as (_ & -> & _). frame_solve.
  - destruct (compiled (heap s) v) as [v'|e] eqn:Hv.
    + rewrite (metallic_compiled s v v' Hv). frame_solve.
    + destruct (input_throws s v e Hv) as (_ & _ & ->). frame_solve.
Qed.

Lemma perform_all_cons c cs s :
  perform_all (c :: cs) s = perform_all cs (perform s c).
Proof. done. Qed.

(** X1.  Whatever is called on a mesh, in whatever order and whether
    the calls return or throw, the identity the dispatcher assigned to
    it at construction stays the same, and so do its [uniforms] and
    [buffers] arrays and the render path, the context, the identity
    counter and the subscriptions of the dispatcher: subscribing happens
    once, in the constructor. *)
Theorem fixed_part_invariant cs : ∀ s,
  fixed_part (perform_all cs s) = fixed_part s.
Proof.
  induction cs as [|c cs IH]; intros s; [done|].
  rewrite perform_all_cons, IH. by destruct (perform_frame s c) as (-> & _).
Qed.

(** X2.  No method of the mesh ever removes an identity from the dirty
    set of the dispatcher: across any sequence of calls, [clean]
    included, the dirty set can only grow. *)
Theorem dirty_never_shrinks cs : ∀ s,
  dirty (dispatch s) ⊆ dirty (dispatch (perform_all cs s)).
Proof.
  induction cs as [|c cs IH]; intros s; [done|].
  rewrite perform_all_cons. etrans; [|apply IH].
  by destruct (perform_frame s c) as (_ & _ & Hd & _).
Qed.

(** X3.  [clean] is the only method that writes to the output stream
    or to the heap: a sequence of calls without [clean] leaves the
    commands sent so far and every heap object, the invalidation lists
    of the geometries included, as they were. *)
Theorem only_clean_sends cs : ∀ s,
  forallb (λ c, negb (is_Clean c)) cs = true →
  commands (dispatch (perform_all cs s)) = commands (dispatch s)
  ∧ heap (perform_all cs s) = heap s.
Proof.
  induction cs as [|c cs IH]; intros s Hcs; [done|].
  cbn [forallb] in Hcs. apply andb_prop in Hcs as [Hc Hcs].
  apply negb_true_iff in Hc. rewrite perform_all_cons.
  destruct (IH (perform s c) Hcs) as [-> ->].
  destruct (perform_frame s c) as (_ & _ & _ & Hq & _).
  by apply Hq.
Qed.

Lemma only_clean_sends_witness :
  let cs := [SetGeometry Scene.A; Notify (OnOpacityChange (VNum 1));
             BaseColor (VNum 5); Normal VUndef; GetSize] in
  forallb (λ c, negb (is_Clean c)) cs = true
  ∧ commands (dispatch (perform_all cs Scene.fresh))
    = commands (dispatch Scene.fresh)
  ∧ heap (perform_all cs Scene.fresh) = heap Scene.fresh.
Proof.
  intros cs. split; [reflexivity|].
  apply (only_clean_sends cs Scene.fresh). reflexivity.
Defined.

Lemma cached_size_length cs : ∀ s,
  length (_size (this s)) = 0 ∨ length (_size (this s)) = 3 →
  length (_size (this (perform_all cs s)))
  = if existsb is_SizeChange cs then 3 else length (_size (this s)).
Proof.
  induction cs as [|c cs IH]; intros s Hs; [done|].
  rewrite perform_all_cons.
  destruct (perform_frame s c) as (_ & Hsz & _).
  destruct (is_SizeChange c) eqn:Hc; cbn [existsb]; rewrite Hc; cbn [orb].
  - destruct c as [[t|size|o|o]| | | | | | |]; try discriminate.
    cbn [size_after_call size_after] in Hsz.
    assert (Hlen : length (_size (this (perform s (Notify (OnSizeChange size)))))
                   = 3).
    { rewrite Hsz, cache_size_length. lia. }
    rewrite IH by (by right). rewrite Hlen. by destruct (existsb _ _).
  - assert (Hsame : _size (this (perform s c)) = _size (this s)).
    { rewrite Hsz. by destruct c as [[t|size|o|o]| | | | | | |]. }
    rewrite IH by (by rewrite Hsame). by rewrite Hsame.
Qed.

(** X4.  In every state a mesh can reach from its construction, the
    cached size that [getSize] returns has no component as long as no
    size-change notification was received and exactly three components
    from the first one on; no other call alters it. *)
Theorem cached_size_reachable d h cs :
  getSize (perform_all cs (Mesh_new d h))
  = (Return (_size (this (perform_all cs (Mesh_new d h)))),
     perform_all cs (Mesh_new d h))
  ∧ length (_size (this (perform_all cs (Mesh_new d h))))
    = if existsb is_SizeChange cs then 3 else 0.
Proof.
  split; [apply getSize_pure|].
  rewrite cached_size_length; rewrite Mesh_new_state; [done|by left].
Qed.

(** X5.  A size-change notification caches the first three components
    of the size it receives, a missing component reading as
    [undefined], and never shortens the cached array; the queue
    receives the whole array as it was received. *)
Theorem size_change_caches size s :
  let s' := (_receiveSizeChange size s).2 in
  js_index (_size (this s')) 0 = js_index size 0
  ∧ js_index (_size (this s')) 1 = js_index size 1
  ∧ js_index (_size (this s')) 2 = js_index size 2
  ∧ length (_size (this s')) = max (length (_size (this s))) 3
  ∧ queue (this s')
    = queue (this s) ++ [VStr "GL_UNIFORMS"; VStr "size"; VArr size].
Proof.
  intros s'. subst s'.
  change (_receiveSizeChange size s) with (notify (OnSizeChange size) s).
  rewrite notify_state. js_run. cbn [size_after opcode].
  rewrite !cache_size_index by lia. by rewrite cache_size_length.
Qed.

(** ** Construction and notifications *)

(** X6.  A freshly constructed mesh has queued, in this order,
    [GL_CREATE_MESH], the transform and the origin of the dispatcher's
    current context, and neither size nor opacity; it carries the
    identity the dispatcher handed out, under which it is dirty, holds
    no geometry and no cached colour, and has subscribed to transform,
    size, opacity and origin changes in that order.  Construction sends
    nothing to the output stream and leaves the heap alone. *)
Theorem Mesh_new_seeds_queue d h :
  let s := Mesh_new d h in
  queue (this s)
  = [VStr "GL_CREATE_MESH";
     VStr "GL_UNIFORMS"; VStr "transform"; _matrix (_transform (context d));
     VStr "GL_UNIFORMS"; VStr "origin"; _origin (context d)]
  ∧ _id (this s) = nextId d
  ∧ _id (this s) ∈ dirty (dispatch s)
  ∧ _geometry (this s) = None
  ∧ _baseColor (this s) = VUndef
  ∧ subscriptions (dispatch s)
    = subscriptions d
      ++ [TransformChange; SizeChange; OpacityChange; OriginChange]
  ∧ commands (dispatch s) = commands d
  ∧ heap s = h.
Proof.
  intros s. subst s. rewrite Mesh_new_state. js_run.
  repeat split; try done. set_solver.
Qed.

Lemma deliver_effect ns : ∀ s,
  ∃ sz,
    deliver ns s
    = (Return tt,
       with_dispatch
         (set_dirty
            (if decide (ns = []) then dirty (dispatch s)
             else {[ _id (this s) ]} ∪ dirty (dispatch s))
            (dispatch s))
         (with_this
            (set_size sz
               (set_queue (queue (this s) ++ flat_map opcode ns) (this s)))
            s)).
Proof.
  induction ns as [|n ns IH]; intros s.
  - exists (_size (this s)). rewrite decide_True by done.
    cbn [deliver flat_map]. unfold ret. rewrite app_nil_r.
    by destruct s as [[] [] h].
  - cbn [deliver]. unfold bind at 1. rewrite notify_state.
    match goal with |- context [deliver ns ?s1] =>
      destruct (IH s1) as (sz2 & Hd) end.
    exists sz2. rewrite Hd, (decide_False (P := n :: ns = [])) by done.
    js_run. cbn [flat_map]. rewrite <- app_assoc.
    destruct (decide (ns = [])); [done|].
    assert (Hidem : {[_id (this s)]} ∪ ({[_id (this s)]} ∪ dirty (dispatch s))
                    = {[_id (this s)]} ∪ dirty (dispatch s))
      by (by rewrite (assoc_L (∪)), union_idemp_L).
    by rewrite Hidem.
Qed.

(** X7.  Notifications only queue: delivering any sequence of them
    returns, appends the three-element opcode of each to the queue in
    delivery order without coalescing repeated properties, sends
    nothing to the output stream, changes no heap object and keeps the
    held geometry; after at least one notification the mesh is dirty. *)
Theorem deliver_only_queues ns s :
  ∃ s',
    deliver ns s = (Return tt, s')
    ∧ queue (this s') = queue (this s) ++ flat_map opcode ns
    ∧ length (queue (this s')) = length (queue (this s)) + 3 * length ns
    ∧ commands (dispatch s') = commands (dispatch s)
    ∧ heap s' = heap s
    ∧ _geometry (this s') = _geometry (this s)
    ∧ (ns = [] ∨ _id (this s) ∈ dirty (dispatch s')).
Proof.
  destruct (deliver_effect ns s) as (sz & Hd).
  eexists. split; [exact Hd|]. js_run. repeat split; try done.
  - rewrite length_app. f_equal.
    clear. induction ns as [|n ns IH]; [done|].
    cbn [flat_map]. rewrite length_app, IH. destruct n; cbn [opcode length]; lia.
  - case_decide; [by left|]. right. set_solver.
Qed.

(** ** Draining *)

(** X8.  Whether it returns or throws, [clean] changes nothing of the
    mesh but its queue and nothing of the dispatcher but its output
    stream: the cached size, the cached colour and the held geometry
    stay, and the dirty set is left exactly as it was; clearing the
    dirty flag is not done by the mesh. *)
Theorem clean_keeps_mesh_and_dirty s :
  let s' := (clean s).2 in
  fixed_part s' = fixed_part s
  ∧ _size (this s') = _size (this s)
  ∧ _geometry (this s') = _geometry (this s)
  ∧ _baseColor (this s') = _baseColor (this s)
  ∧ dirty (dispatch s') = dirty (dispatch s).
Proof.
  intros s'. subst s'.
  destruct (clean_cases s) as [(l & g & Hg & ->)| ->];
    unfold cleaned, fixed_part; js_run; done.
Qed.

(** X9.  With a geometry assigned, the only heap object [clean]
    changes is that geometry, and of it only the invalidation list,
    which is left empty: its id, type, dynamic flag and buffers, and
    every other object of the heap, are untouched. *)
Theorem clean_heap_effect s l g :
  has_geometry s l g →
  heap (clean s).2 = <[l := OGeometry (with_invalidations [] g)]> (heap s).
Proof. intros Hg. by rewrite (clean_returns s l g Hg). Qed.

Lemma clean_heap_effect_witness :
  let s := perform Scene.fresh (SetGeometry Scene.B) in
  has_geometry s Scene.B Scene.H
  ∧ heap (clean s).2
    = <[Scene.B := OGeometry (with_invalidations [] Scene.H)]> (heap s).
Proof.
  intros s.
  assert (Hg : has_geometry s Scene.B Scene.H) by (split; reflexivity).
  split; [exact Hg|]. exact (clean_heap_effect s Scene.B Scene.H Hg).
Defined.

Lemma uploads_rev_seq g n : uploads g n = uploads_at g (rev (seq 0 n)).
Proof.
  unfold uploads_at. induction n as [|n IH]; [done|].
  rewrite seq_S, rev_app_distr. cbn [uploads rev app flat_map Nat.add].
  by rewrite IH.
Qed.

Lemma uploads_length g n : length (uploads g n) = 5 * n.
Proof.
  induction n as [|n IH]; [done|].
  cbn [uploads]. rewrite length_app, IH. cbn [upload length]. lia.
Qed.

(** The output of a [clean] that returns. *)
Lemma clean_output s l g :
  has_geometry s l g →
  commands (dispatch (clean s).2)
  = commands (dispatch s)
    ++ header s
    ++ uploads g (length (invalidations (spec g)))
    ++ queue (this s).
Proof. intros Hg. by rewrite (clean_returns s l g Hg). Qed.

(** X10.  What [clean] uploads depends on how many invalidations are
    pending, not on which: with [k] pending entries it sends the
    uploads of the buffers at the indices [k-1], ..., [0], in that
    order, between the header and the queue, so that the output grows
    by [2 + 5 k] elements plus the length of the queue. *)
Theorem clean_uploads_leading_buffers s l g :
  has_geometry s l g →
  commands (dispatch (clean s).2)
  = commands (dispatch s)
    ++ header s
    ++ uploads_at g (rev (seq 0 (length (invalidations (spec g)))))
    ++ queue (this s)
  ∧ length (commands (dispatch (clean s).2))
    = length (commands (dispatch s))
      + 2 + 5 * length (invalidations (spec g)) + length (queue (this s)).
Proof.
  intros Hg. rewrite (clean_output s l g Hg), <- uploads_rev_seq.
  split; [done|].
  rewrite !length_app, uploads_length. cbn [header length]. lia.
Qed.

Lemma clean_uploads_leading_buffers_witness :
  let s := perform Scene.fresh (SetGeometry Scene.B) in
  has_geometry s Scene.B Scene.H
  ∧ length (commands (dispatch (clean s).2))
    = length (commands (dispatch s))
      + 2 + 5 * length (invalidations (spec Scene.H))
      + length (queue (this s)).
Proof.
  intros s.
  assert (Hg : has_geometry s Scene.B Scene.H) by (split; reflexivity).
  split; [exact Hg|].
  exact (proj2 (clean_uploads_leading_buffers s Scene.B Scene.H Hg)).
Defined.

(** X11.  When the pending invalidations are the buffer indices
    [0], ..., [k-1] in increasing order, as after every buffer of a
    geometry was set once, each upload that [clean] sends is that of
    the buffer named by the entry popped for it: the uploads are those
    of the pending entries, last entry first. *)
Theorem clean_uploads_popped_when_in_order s l g :
  has_geometry s l g →
  invalidations (spec g) = seq 0 (length (invalidations (spec g))) →
  commands (dispatch (clean s).2)
  = commands (dispatch s)
    ++ header s
    ++ uploads_at g (rev (invalidations (spec g)))
    ++ queue (this s).
Proof.
  intros Hg Hseq.
  rewrite (clean_output s l g Hg), uploads_rev_seq. by rewrite <- Hseq.
Qed.

Lemma clean_uploads_popped_when_in_order_witness :
  let s := perform Scene.fresh (SetGeometry Scene.A) in
  has_geometry s Scene.A Scene.G
  ∧ invalidations (spec Scene.G)
    = seq 0 (length (invalidations (spec Scene.G)))
  ∧ commands (dispatch (clean s).2)
    = commands (dispatch s)
      ++ header s
      ++ uploads_at Scene.G (rev (invalidations (spec Scene.G)))
      ++ queue (this s).
Proof.
  intros s.
  assert (Hg : has_geometry s Scene.A Scene.G) by (split; reflexivity).
  split; [exact Hg|]. split; [reflexivity|].
  apply (clean_uploads_popped_when_in_order s Scene.A Scene.G Hg).
  reflexivity.
Defined.

(** X12.  Reads past the end of the buffer arrays are not checked: when
    the invalidation list is longer than the three buffer arrays, as
    after one buffer was invalidated twice, the first upload that
    [clean] sends carries [undefined] for the name, the value and the
    spacing of the buffer. *)
Theorem clean_upload_past_buffers s l g k :
  has_geometry s l g →
  length (invalidations (spec g)) = S k →
  length (bufferNames (spec g)) ≤ k →
  length (bufferValues (spec g)) ≤ k →
  length (bufferSpacings (spec g)) ≤ k →
  commands (dispatch (clean s).2)
  = commands (dispatch s)
    ++ header s
    ++ [VStr "GL_BUFFER_DATA"; id g; VUndef; VUndef; VUndef]
    ++ uploads g k
    ++ queue (this s).
Proof.
  intros Hg Hi Hn Hv Hs. rewrite (clean_output s l g Hg), Hi.
  cbn [uploads]. unfold upload at 1, js_index.
  by rewrite !lookup_ge_None_2 by done.
Qed.

Lemma clean_upload_past_buffers_witness :
  let s := perform (Mesh_new Scene.d0 Scene2.h1) (SetGeometry Scene2.C) in
  has_geometry s Scene2.C Scene2.K
  ∧ commands (dispatch (clean s).2)
    = commands (dispatch s)
      ++ header s
      ++ [VStr "GL_BUFFER_DATA"; id Scene2.K; VUndef; VUndef; VUndef]
      ++ uploads Scene2.K 1
      ++ queue (this s).
Proof.
  intros s.
  assert (Hg : has_geometry s Scene2.C Scene2.K) by (split; reflexivity).
  split; [exact Hg|].
  apply (clean_upload_past_buffers s Scene2.C Scene2.K 1 Hg);
    [reflexivity|cbn; lia..].
Defined.

(** X13.  Once drained, a mesh sends on its next drain only what was
    queued since: after a [clean], a sequence of notifications and a
    second [clean], the second output is the header followed by the
    opcodes of those notifications, with no upload, and the queue is
    empty again. *)
Theorem clean_deliver_clean s l g ns :
  has_geometry s l g →
  ∃ s1 s2 s3,
    clean s = (Return true, s1)
    ∧ deliver ns s1 = (Return tt, s2)
    ∧ clean s2 = (Return true, s3)
    ∧ commands (dispatch s3)
      = commands (dispatch s1) ++ header s ++ flat_map opcode ns
    ∧ queue (this s3) = [].
Proof.
  intros Hg. destruct (deliver_pushes ns (cleaned s l g)) as (sz & ds & Hd).
  eexists _, _, _. split; [by apply clean_returns|]. split; [exact Hd|].
  match goal with |- clean ?s2 = _ ∧ _ =>
    assert (H2 : has_geometry s2 l (with_invalidations [] g)) end.
  { destruct Hg as [Hl Hg]. split; [done|]. unfold cleaned. js_run.
    by rewrite lookup_insert_eq. }
  split; [by apply clean_returns|]. split; [|done].
  unfold cleaned. js_run. cbn [with_invalidations invalidations spec length
                               uploads app].
  done.
Qed.

Lemma clean_deliver_clean_witness :
  let s := perform Scene.fresh (SetGeometry Scene.A) in
  let ns := [OnOpacityChange (VNum 1); OnOpacityChange (VNum 0)] in
  has_geometry s Scene.A Scene.G
  ∧ ∃ s1 s2 s3,
      clean s = (Return true, s1)
      ∧ deliver ns s1 = (Return tt, s2)
      ∧ clean s2 = (Return true, s3)
      ∧ commands (dispatch s3)
        = commands (dispatch s1) ++ header s ++ flat_map opcode ns
      ∧ queue (this s3) = [].
Proof.
  intros s ns.
  assert (Hg : has_geometry s Scene.A Scene.G) by (split; reflexivity).
  split; [exact Hg|]. exact (clean_deliver_clean s Scene.A Scene.G ns Hg).
Defined.

(** X14.  The invalidation list is shared through the geometry: once
    one mesh has drained, a second mesh of the same dispatcher that
    holds the same geometry reference sends, on its own drain, the
    header and its queue and no upload at all. *)
Theorem clean_shared_geometry s l g m :
  has_geometry s l g →
  _geometry m = Some l →
  ∃ s2,
    clean (with_this m (clean s).2) = (Return true, s2)
    ∧ commands (dispatch s2)
      = commands (dispatch (clean s).2) ++ header s ++ queue m.
Proof.
  intros Hg Hm. rewrite (clean_returns s l g Hg).
  assert (H2 : has_geometry (with_this m (cleaned s l g)) l
                 (with_invalidations [] g)).
  { split; [done|]. unfold cleaned. js_run. by rewrite lookup_insert_eq. }
  eexists. split; [by apply clean_returns|].
  unfold cleaned. js_run.
  cbn [with_invalidations invalidations spec length uploads app]. done.
Qed.

Lemma clean_shared_geometry_witness :
  let s := perform Scene.fresh (SetGeometry Scene.A) in
  let m := this (perform (Mesh_new (dispatch s) (heap s))
                   (SetGeometry Scene.A)) in
  has_geometry s Scene.A Scene.G
  ∧ _geometry m = Some Scene.A
  ∧ ∃ s2,
      clean (with_this m (clean s).2) = (Return true, s2)
      ∧ commands (dispatch s2)
        = commands (dispatch (clean s).2) ++ header s ++ queue m.
Proof.
  intros s m.
  assert (Hg : has_geometry s Scene.A Scene.G) by (split; reflexivity).
  assert (Hm : _geometry m = Some Scene.A) by reflexivity.
  split; [exact Hg|]. split; [exact Hm|].
  exact (clean_shared_geometry s Scene.A Scene.G m Hg Hm).
Defined.

(** ** Assigning a geometry *)

(** X15.  [setGeometry] never marks the mesh dirty and never sends a
    command: whatever its argument and whether it returns or throws, it
    leaves the dispatcher and the heap exactly as they were, and of the
    mesh it changes the queue and the held reference at most. *)
Theorem setGeometry_silent s l :
  let s' := (setGeometry l s).2 in
  dispatch s' = dispatch s
  ∧ heap s' = heap s
  ∧ _size (this s') = _size (this s)
  ∧ _id (this s') = _id (this s)
  ∧ _baseColor (this s') = _baseColor (this s).
Proof.
  intros s'. subst s'. by destruct (setGeometry_shape s l) as (q & r & ->).
Qed.

(** X16.  A geometry assigned right before a drain is announced after
    its own uploads: [setGeometry] followed by [clean] sends the
    header, the uploads of the new geometry, what the queue held, and
    only then [GL_SET_GEOMETRY].  The new geometry's invalidation list
    is emptied; every other heap object, the geometry held before
    included, keeps its pending invalidations. *)
Theorem setGeometry_then_clean s l g :
  _geometry (this s) ≠ Some l →
  heap s !! l = Some (OGeometry g) →
  ∃ s',
    (setGeometry l >> clean) s = (Return true, s')
    ∧ commands (dispatch s')
      = commands (dispatch s)
        ++ header s
        ++ uploads g (length (invalidations (spec g)))
        ++ queue (this s)
        ++ SET_GEOMETRY g
    ∧ queue (this s') = []
    ∧ heap s' = <[l := OGeometry (with_invalidations [] g)]> (heap s).
Proof.
  intros Hl Hg. eexists. unfold bind at 1.
  rewrite (setGeometry_other s l g) by done.
  split; [by apply clean_returns|]. by unfold cleaned.
Qed.

Lemma setGeometry_then_clean_witness :
  let s := perform Scene.fresh (SetGeometry Scene.A) in
  _geometry (this s) ≠ Some Scene.B
  ∧ heap s !! Scene.B = Some (OGeometry Scene.H)
  ∧ ∃ s',
      (setGeometry Scene.B >> clean) s = (Return true, s')
      ∧ commands (dispatch s')
        = commands (dispatch s)
          ++ header s
          ++ uploads Scene.H (length (invalidations (spec Scene.H)))
          ++ queue (this s)
          ++ SET_GEOMETRY Scene.H
      ∧ queue (this s') = []
      ∧ heap s'
        = <[Scene.B := OGeometry (with_invalidations [] Scene.H)]> (heap s).
Proof.
  intros s.
  assert (Hl : _geometry (this s) ≠ Some Scene.B) by discriminate.
  assert (Hg : heap s !! Scene.B = Some (OGeometry Scene.H)) by reflexivity.
  split; [exact Hl|]. split; [exact Hg|].
  exact (setGeometry_then_clean s Scene.B Scene.H Hl Hg).
Defined.

(** X17.  A drain that failed for want of a geometry can be repeated:
    after the failure, assigning a geometry and draining again returns
    [true] and sends everything that was queued.  The output stream
    then holds the header of the failed drain, the header of the second
    one, the uploads, the queue and [GL_SET_GEOMETRY]. *)
Theorem clean_retry_after_failure s l g :
  _geometry (this s) = None →
  heap s !! l = Some (OGeometry g) →
  ∃ s',
    (clean s).1 = Throw TypeError
    ∧ (setGeometry l >> clean) (clean s).2 = (Return true, s')
    ∧ commands (dispatch s')
      = commands (dispatch s)
        ++ header s
        ++ header s
        ++ uploads g (length (invalidations (spec g)))
        ++ queue (this s)
        ++ SET_GEOMETRY g
    ∧ queue (this s') = [].
Proof.
  intros Hn Hg. rewrite (clean_throws s Hn). cbn [fst snd]. eexists.
  split; [done|]. unfold bind at 1.
  rewrite (setGeometry_other (emit (header s) s) l g);
    [|change (_geometry (this s) ≠ Some l); by rewrite Hn|done].
  split; [by apply clean_returns|]. unfold cleaned. js_run.
  by rewrite <- !app_assoc.
Qed.

Lemma clean_retry_after_failure_witness :
  _geometry (this Scene.fresh) = None
  ∧ heap Scene.fresh !! Scene.A = Some (OGeometry Scene.G)
  ∧ ∃ s',
      (clean Scene.fresh).1 = Throw TypeError
      ∧ (setGeometry Scene.A >> clean) (clean Scene.fresh).2
        = (Return true, s')
      ∧ commands (dispatch s')
        = commands (dispatch Scene.fresh)
          ++ header Scene.fresh
          ++ header Scene.fresh
          ++ uploads Scene.G (length (invalidations (spec Scene.G)))
          ++ queue (this Scene.fresh)
          ++ SET_GEOMETRY Scene.G
      ∧ queue (this s') = [].
Proof.
  assert (Hn : _geometry (this Scene.fresh) = None) by reflexivity.
  assert (Hg : heap Scene.fresh !! Scene.A = Some (OGeometry Scene.G))
    by reflexivity.
  split; [exact Hn|]. split; [exact Hg|].
  exact (clean_retry_after_failure Scene.fresh Scene.A Scene.G Hn Hg).
Defined.

(** ** Material inputs *)

(** X18.  [baseColor] caches the value left by the compile step unless
    that value is an array, in which case the cache keeps what it held:
    assigning a non-array expression and then an array queues a
    [MATERIAL_INPUT] opcode followed by a [GL_UNIFORMS] opcode, and the
    cached colour is still the first value although the second is the
    one in force. *)
Theorem baseColor_cache_skips_arrays s v v' a :
  compiled (heap s) v = Return v' →
  isArray v' = false →
  ∃ s',
    (baseColor v >> baseColor (VArr a)) s = (Return tt, s')
    ∧ _baseColor (this s') = v'
    ∧ queue (this s')
      = queue (this s)
        ++ [VStr "MATERIAL_INPUT"; VStr "baseColor"; v';
            VStr "GL_UNIFORMS"; VStr "baseColor"; VArr a].
Proof.
  intros Hv Hna. eexists. unfold bind at 1.
  rewrite (baseColor_compiled s v v' Hv), Hna.
  split; [by apply (baseColor_compiled _ (VArr a) (VArr a))|].
  js_run. cbn [isArray]. by rewrite <- app_assoc.
Qed.

Lemma baseColor_cache_skips_arrays_witness :
  let s := Mesh_new Scene.d0 Scene2.h1 in
  let a := [VNum 1; VNum 0; VNum 0] in
  compiled (heap s) (VRef Scene2.D) = Return Scene2.texture
  ∧ isArray Scene2.texture = false
  ∧ ∃ s',
      (baseColor (VRef Scene2.D) >> baseColor (VArr a)) s = (Return tt, s')
      ∧ _baseColor (this s') = Scene2.texture
      ∧ queue (this s')
        = queue (this s)
          ++ [VStr "MATERIAL_INPUT"; VStr "baseColor"; Scene2.texture;
              VStr "GL_UNIFORMS"; VStr "baseColor"; VArr a].
Proof.
  intros s a.
  assert (Hv : compiled (heap s) (VRef Scene2.D) = Return Scene2.texture)
    by reflexivity.
  split; [exact Hv|]. split; [reflexivity|].
  exact (baseColor_cache_skips_arrays s (VRef Scene2.D) Scene2.texture a
           Hv eq_refl).
Defined.

(** X19.  A material expression that is [undefined] makes every slot
    throw a [TypeError] before anything is queued.  [normal],
    [glossiness] and [metallic] then leave the state untouched, whereas
    [baseColor] has already marked the mesh dirty. *)
Theorem material_input_undefined s :
  baseColor VUndef s
  = (Throw TypeError,
     with_dispatch (set_dirty ({[ _id (this s) ]} ∪ dirty (dispatch s))
                      (dispatch s)) s)
  ∧ normal VUndef s = (Throw TypeError, s)
  ∧ glossiness VUndef s = (Throw TypeError, s)
  ∧ metallic VUndef s = (Throw TypeError, s).
Proof.
  split; [by apply baseColor_throws|]. by apply input_throws.
Qed.
